(** * js-algorand-sdk: OptionalSchema and LookupAccountAppLocalStates

    A shallow embedding of
      - src/encoding/schema/optional.ts              (class OptionalSchema)
      - src/client/v2/indexer/lookupAccountAppLocalStates.ts
    and the properties of both that the specification states.

    JavaScript values are an inductive type; a call that may throw returns a
    [Completion]; objects that are mutated in place live in a store and are
    handled through references. *)

From Stdlib Require Import ZArith SpecFloat.
From stdpp Require Import gmap strings.

Set Default Proof Using "Type".
Local Set Warnings "-register-all".
Local Open Scope string_scope.

(* ===================================================================== *)
(** ** JavaScript values *)
(* ===================================================================== *)

(** A JavaScript [number] is an IEEE-754 double.  The code under study stores
    and forwards numbers and never computes with them. *)
Definition number : Type := spec_float.

(** The runtime values the two classes handle.  TypeScript's [unknown],
    [MsgpackEncodingData] and [JSONEncodingData] are erased at run time, so
    all three are this one type. *)
Inductive JSValue : Type :=
  | JSUndefined
  | JSNull
  | JSBoolean (b : bool)
  | JSNumber (n : number)
  | JSBigInt (z : Z)
  | JSString (s : string)
  | JSUint8Array (bytes : list Byte.byte)
  | JSArray (elems : list JSValue)
  | JSMap (entries : list (JSValue * JSValue))
  | JSObject (props : list (string * JSValue)).

Definition MsgpackEncodingData : Type := JSValue.
Definition JSONEncodingData : Type := JSValue.

(** [x === undefined] *)
Definition is_undefined (x : JSValue) : bool :=
  match x with JSUndefined => true | _ => false end.

(** [x === null] *)
Definition is_null (x : JSValue) : bool :=
  match x with JSNull => true | _ => false end.

(* ===================================================================== *)
(** ** Calls that may throw *)
(* ===================================================================== *)

(** The outcome of a call: it returns a value, or it throws one. *)
Inductive Completion (A : Type) : Type :=
  | Normal (a : A)
  | Throw (e : JSValue).
Arguments Normal {A} a.
Arguments Throw {A} e.

Definition cbind {A B : Type} (m : Completion A) (k : A → Completion B)
  : Completion B :=
  match m with
  | Normal a => k a
  | Throw e => Throw e
  end.

Notation "m >>=! k" := (cbind m k) (at level 60, right associativity).

(* ===================================================================== *)
(** ** Schemas (src/encoding/schema/optional.ts) *)
(* ===================================================================== *)

(** Modelled from the spec: the abstract class [Schema] of encoding.ts, which
    optional.ts imports and extends, is not among the sources.  Section 4.1
    of the specification gives its six operations: [defaultValue] and
    [isDefaultValue] always succeed, the four conversions may fail. *)
Record SchemaMethods : Type := {
  m_defaultValue : JSValue;
  m_isDefaultValue : JSValue → bool;
  m_prepareMsgpack : JSValue → Completion MsgpackEncodingData;
  m_fromPreparedMsgpack : MsgpackEncodingData → Completion JSValue;
  m_prepareJSON : JSValue → Completion JSONEncodingData;
  m_fromPreparedJSON : JSONEncodingData → Completion JSValue
}.

(** A schema object is an instance of [OptionalSchema], with its field
    [valueSchema], or an instance of some other subclass of [Schema], given
    by its methods. *)
Inductive Schema : Type :=
  | OtherSchema (methods : SchemaMethods)
  | OptionalSchema (valueSchema : Schema).

(** [constructor(public readonly valueSchema: Schema) { super(); }] *)
Definition new_OptionalSchema (valueSchema : Schema) : Completion Schema :=
  Normal (OptionalSchema valueSchema).

(** The schema [new OptionalSchema(new OptionalSchema(S))]: two constructor
    calls, the second on the result of the first. *)
Definition new_double_optional (S : Schema) : Completion Schema :=
  new_OptionalSchema S >>=! new_OptionalSchema.

(** Method dispatch: the [OptionalSchema] cases are the method bodies of
    optional.ts, with [this.valueSchema.m(...)] the recursive call. *)

Definition defaultValue (this : Schema) : JSValue :=
  match this with
  | OtherSchema m => m_defaultValue m
  | OptionalSchema _ => JSUndefined
  end.

Fixpoint isDefaultValue (this : Schema) (data : JSValue) : bool :=
  match this with
  | OtherSchema m => m_isDefaultValue m data
  | OptionalSchema valueSchema =>
      is_undefined data || isDefaultValue valueSchema data
  end.

Fixpoint prepareMsgpack (this : Schema) (data : JSValue)
  : Completion MsgpackEncodingData :=
  match this with
  | OtherSchema m => m_prepareMsgpack m data
  | OptionalSchema valueSchema =>
      if is_undefined data then Normal JSUndefined
      else prepareMsgpack valueSchema data
  end.

Fixpoint fromPreparedMsgpack (this : Schema) (encoded : MsgpackEncodingData)
  : Completion JSValue :=
  match this with
  | OtherSchema m => m_fromPreparedMsgpack m encoded
  | OptionalSchema valueSchema =>
      if is_undefined encoded || is_null encoded then Normal JSUndefined
      else fromPreparedMsgpack valueSchema encoded
  end.

Fixpoint prepareJSON (this : Schema) (data : JSValue)
  : Completion JSONEncodingData :=
  match this with
  | OtherSchema m => m_prepareJSON m data
  | OptionalSchema valueSchema =>
      if is_undefined data then Normal JSNull
      else prepareJSON valueSchema data
  end.

Fixpoint fromPreparedJSON (this : Schema) (encoded : JSONEncodingData)
  : Completion JSValue :=
  match this with
  | OtherSchema m => m_fromPreparedJSON m encoded
  | OptionalSchema valueSchema =>
      if is_undefined encoded || is_null encoded then Normal JSUndefined
      else fromPreparedJSON valueSchema encoded
  end.

(** One encode-decode cycle through the msgpack tree:
    [fromPreparedMsgpack(prepareMsgpack(v))]. *)
Definition roundTripMsgpack (S : Schema) (v : JSValue) : Completion JSValue :=
  prepareMsgpack S v >>=! fromPreparedMsgpack S.

(** *** A sample inner schema

    Used to run the definitions and to instantiate the theorems: a flag that
    is given as a boolean or as a bigint and is always encoded, and decoded,
    as a boolean.  Its default is [false]; the bigint [0n] is a default too
    and does not survive a cycle unchanged. *)

Definition notAFlag : JSValue := JSString "not a flag".

Definition flag_prepare (data : JSValue) : Completion JSValue :=
  match data with
  | JSBoolean b => Normal (JSBoolean b)
  | JSBigInt z => Normal (JSBoolean (negb (z =? 0)%Z))
  | _ => Throw notAFlag
  end.

Definition flag_fromPrepared (encoded : JSValue) : Completion JSValue :=
  match encoded with
  | JSBoolean b => Normal (JSBoolean b)
  | _ => Throw notAFlag
  end.

Definition flag_isDefaultValue (data : JSValue) : bool :=
  match data with
  | JSBoolean b => negb b
  | JSBigInt z => (z =? 0)%Z
  | _ => false
  end.

Definition FlagSchema : Schema :=
  OtherSchema {|
    m_defaultValue := JSBoolean false;
    m_isDefaultValue := flag_isDefaultValue;
    m_prepareMsgpack := flag_prepare;
    m_fromPreparedMsgpack := flag_fromPrepared;
    m_prepareJSON := flag_prepare;
    m_fromPreparedJSON := flag_fromPrepared
  |}.

(* ===================================================================== *)
(** ** The request builder
       (src/client/v2/indexer/lookupAccountAppLocalStates.ts) *)
(* ===================================================================== *)

(** A reference to an object in the store. *)
Definition ObjRef : Type := nat.

Section RequestModel.
(** [HTTPClient] (client.ts) and [IntDecoding] (types/intDecoding.ts) are
    only passed through to the base class. *)
Context {HTTPClient IntDecoding : Type}.

(** The base class [JSONRequest] (jsonrequest.ts) is not among the sources.
    The subclass uses one field of it, [query], an object used as a map from
    parameter names to values; whatever else the base class keeps in the
    object is of the type [BaseFields]. *)
Context {BaseFields : Type}.

Record JSONRequest : Type := {
  query : gmap string JSValue;
  inherited : BaseFields
}.

(** The base-class constructor call [super(c, intDecoding)] is a parameter:
    the base fields it leaves in the new object. *)
Variable JSONRequest_constructor : HTTPClient → IntDecoding → JSONRequest.

(** An instance of [LookupAccountAppLocalStates]: the inherited fields and
    [private account: string]. *)
Record LookupAccountAppLocalStates : Type := {
  super : JSONRequest;
  account : string
}.

Definition set_account (o : LookupAccountAppLocalStates) (a : string)
  : LookupAccountAppLocalStates :=
  {| super := super o; account := a |}.

Definition set_query (o : LookupAccountAppLocalStates) (q : gmap string JSValue)
  : LookupAccountAppLocalStates :=
  {| super := {| query := q; inherited := inherited (super o) |};
     account := account o |}.

(** Request objects are mutated in place and returned by reference: they
    live in a store.  A computation reads and updates the store; it has no
    result ([None]) only when it follows a reference to no object, which no
    JavaScript program can hold. *)
Definition M (A : Type) : Type :=
  gmap ObjRef LookupAccountAppLocalStates
  → option (A * gmap ObjRef LookupAccountAppLocalStates).

Definition ret {A : Type} (a : A) : M A := λ σ, Some (a, σ).

Definition bind {A B : Type} (m : M A) (k : A → M B) : M B :=
  λ σ, match m σ with
       | Some (a, σ') => k a σ'
       | None => None
       end.

(** Read the object behind [this]. *)
Definition deref (this : ObjRef) : M LookupAccountAppLocalStates :=
  λ σ, match σ !! this with
       | Some o => Some (o, σ)
       | None => None
       end.

(** [this.query[key] = value] *)
Definition assign_query (this : ObjRef) (key : string) (value : JSValue)
  : M unit :=
  bind (deref this) (λ o σ,
    Some (tt, <[this := set_query o (<[key := value]> (query (super o)))]> σ)).

(** [constructor(c, intDecoding, private account) {
       super(c, intDecoding); this.account = account; }]
    The parameter property assigns [account] once and the body assigns it
    again. *)
Definition new_LookupAccountAppLocalStates
    (c : HTTPClient) (intDecoding : IntDecoding) (account : string)
  : M ObjRef :=
  λ σ,
    let this := fresh (dom σ) in
    let o := {| super := JSONRequest_constructor c intDecoding;
                account := account |} in
    let o := set_account o account in
    Some (this, <[this := o]> σ).

(** [path() { return `/v2/accounts/${this.account}/apps-local-state`; }] *)
Definition path (this : ObjRef) : M string :=
  bind (deref this) (λ o,
    ret ("/v2/accounts/" +:+ account o +:+ "/apps-local-state")).

(** [limit(limit: number) { this.query.limit = limit; return this; }] *)
Definition limit (this : ObjRef) (limit : number) : M ObjRef :=
  bind (assign_query this "limit" (JSNumber limit)) (λ _, ret this).

(** [round(round: number) { this.query.round = round; return this; }] *)
Definition round (this : ObjRef) (round : number) : M ObjRef :=
  bind (assign_query this "round" (JSNumber round)) (λ _, ret this).

(** [nextToken(nextToken: string) { this.query.next = nextToken; return this; }] *)
Definition nextToken (this : ObjRef) (nextToken : string) : M ObjRef :=
  bind (assign_query this "next" (JSString nextToken)) (λ _, ret this).

(** [includeAll(value = true) { this.query['include-all'] = value; return this; }]
    The argument is [None] when the caller leaves it out or passes
    [undefined]; the default initialiser then applies. *)
Definition includeAll (this : ObjRef) (value : option bool) : M ObjRef :=
  let value := match value with Some b => b | None => true end in
  bind (assign_query this "include-all" (JSBoolean value)) (λ _, ret this).

(** [applicationID(index: number) { this.query['application-id'] = index; return this; }] *)
Definition applicationID (this : ObjRef) (index : number) : M ObjRef :=
  bind (assign_query this "application-id" (JSNumber index)) (λ _, ret this).

(** A call of one of the five query-builder methods, with its argument. *)
Inductive QueryCall : Type :=
  | CallLimit (limit : number)
  | CallRound (round : number)
  | CallNextToken (nextToken : string)
  | CallIncludeAll (value : option bool)
  | CallApplicationID (index : number).

Definition invoke (this : ObjRef) (call : QueryCall) : M ObjRef :=
  match call with
  | CallLimit n => limit this n
  | CallRound n => round this n
  | CallNextToken s => nextToken this s
  | CallIncludeAll b => includeAll this b
  | CallApplicationID n => applicationID this n
  end.

(** A chain [r.m1(a1).m2(a2)...]: each call is made on the object the
    previous one returned. *)
Fixpoint chain (this : ObjRef) (calls : list QueryCall) : M ObjRef :=
  match calls with
  | [] => ret this
  | call :: rest => bind (invoke this call) (λ this', chain this' rest)
  end.

(** The query key a call writes and the value it writes there. *)
Definition call_key (call : QueryCall) : string :=
  match call with
  | CallLimit _ => "limit"
  | CallRound _ => "round"
  | CallNextToken _ => "next"
  | CallIncludeAll _ => "include-all"
  | CallApplicationID _ => "application-id"
  end.

Definition call_value (call : QueryCall) : JSValue :=
  match call with
  | CallLimit n => JSNumber n
  | CallRound n => JSNumber n
  | CallNextToken s => JSString s
  | CallIncludeAll (Some b) => JSBoolean b
  | CallIncludeAll None => JSBoolean true
  | CallApplicationID n => JSNumber n
  end.

(** What it means for a method to write one query key and nothing else:
    called on an object [o], it returns the reference it was called on, and
    the object behind that reference afterwards has [value] at [key], the
    query entries of [o] at every other key, and the other fields of [o];
    so [path()] returns what it returned before.  No other object of the
    store changes. *)
Definition sets_one_key
    (method : ObjRef → M ObjRef) (key : string) (value : JSValue) : Prop :=
  ∀ σ this o, σ !! this = Some o →
    ∃ o', method this σ = Some (this, <[this := o']> σ)
        ∧ query (super o') !! key = Some value
        ∧ (∀ k, k ≠ key → query (super o') !! k = query (super o) !! k)
        ∧ account o' = account o
        ∧ inherited (super o') = inherited (super o)
        ∧ fst <$> path this (<[this := o']> σ) = fst <$> path this σ.

End RequestModel.

Arguments JSONRequest : clear implicits.
Arguments LookupAccountAppLocalStates : clear implicits.
Arguments M : clear implicits.

(** *** A sample request

    Used to run the builder methods: a store with one request object, for
    the account of the examples in the source comments, and the number 20. *)

Definition sampleAccount : string :=
  "XBYLS2E6YI6XXL5BWCAMOA4GTWHXWENZMX5UHXMRNWWUQ7BXCY5WC5TEPA".

Definition sampleRequest : LookupAccountAppLocalStates unit :=
  {| super := {| query := ∅; inherited := tt |};
     account := sampleAccount |}.

Definition sampleStore : gmap ObjRef (LookupAccountAppLocalStates unit) :=
  {[ 0 := sampleRequest ]}.

Definition twenty : number := S754_finite false 5 2.


(** *** Further definitions for the properties below *)

(** One encode-decode cycle through the JSON tree:
    [fromPreparedJSON(prepareJSON(v))]. *)
Definition roundTripJSON (S : Schema) (v : JSValue) : Completion JSValue :=
  prepareJSON S v >>=! fromPreparedJSON S.

(** [inner] wrapped [n] times: the object that [n] constructor calls, each on
    the result of the one before, build. *)
Fixpoint nest (n : nat) (inner : Schema) : Schema :=
  match n with
  | O => inner
  | Datatypes.S n' => OptionalSchema (nest n' inner)
  end.

Fixpoint new_nested (n : nat) (inner : Schema) : Completion Schema :=
  match n with
  | O => Normal inner
  | Datatypes.S n' => new_nested n' inner >>=! new_OptionalSchema
  end.

(** A second sample schema: the flag schema made lenient, reading
    [undefined] as [false] when it encodes and [undefined] and [null] as
    [false] when it decodes.  It differs from [FlagSchema] only there. *)
Definition LenientFlagSchema : Schema :=
  OtherSchema {|
    m_defaultValue := JSBoolean false;
    m_isDefaultValue := λ v, is_undefined v || flag_isDefaultValue v;
    m_prepareMsgpack := λ v,
      if is_undefined v then Normal (JSBoolean false) else flag_prepare v;
    m_fromPreparedMsgpack := λ e,
      if is_undefined e || is_null e then Normal (JSBoolean false)
      else flag_fromPrepared e;
    m_prepareJSON := λ v,
      if is_undefined v then Normal (JSBoolean false) else flag_prepare v;
    m_fromPreparedJSON := λ e,
      if is_undefined e || is_null e then Normal (JSBoolean false)
      else flag_fromPrepared e
  |}.

(** The query map after a list of builder calls, made in order on a request
    whose query map was [q]. *)
Definition apply_calls (q : gmap string JSValue) (calls : list QueryCall)
  : gmap string JSValue :=
  foldl (λ q call, <[call_key call := call_value call]> q) q calls.

(** The value that the last call on key [k] in [calls] writes, if any call
    writes [k]. *)
Fixpoint last_write (k : string) (calls : list QueryCall) : option JSValue :=
  match calls with
  | [] => None
  | call :: rest =>
      match last_write k rest with
      | Some v => Some v
      | None => if decide (call_key call = k) then Some (call_value call)
                else None
      end
  end.

(** A second number, a second request object and a store that holds both
    requests. *)
Definition five : number := S754_finite false 5 0.

Definition otherRequest : LookupAccountAppLocalStates unit :=
  {| super := {| query := {[ "round" := JSNumber five ]}; inherited := tt |};
     account := "ABC" |}.

Definition twoRequests : gmap ObjRef (LookupAccountAppLocalStates unit) :=
  {[ 0 := sampleRequest; 1 := otherRequest ]}.

(* ===================================================================== *)
(** * Properties *)
(* ===================================================================== *)

(** ** Strict equality with [undefined] and [null] *)

Lemma is_undefined_spec (x : JSValue) : is_undefined x = true ↔ x = JSUndefined.
Proof. destruct x; simpl; split; congruence. Qed.

Lemma is_null_spec (x : JSValue) : is_null x = true ↔ x = JSNull.
Proof. destruct x; simpl; split; congruence. Qed.

Lemma is_undefined_false (x : JSValue) : is_undefined x = false ↔ x ≠ JSUndefined.
Proof. destruct x; simpl; split; congruence. Qed.

Lemma is_null_false (x : JSValue) : is_null x = false ↔ x ≠ JSNull.
Proof. destruct x; simpl; split; congruence. Qed.

(** The guard [encoded === undefined || encoded === null]. *)
Lemma nil_guard_false (x : JSValue) :
  is_undefined x || is_null x = false ↔ x ≠ JSUndefined ∧ x ≠ JSNull.
Proof.
  destruct x; simpl;
    (split; [intros H; try discriminate H; split; congruence
            | intros [? ?]; congruence]).
Qed.

(** ** Completions *)

Lemma cbind_inv_Normal {A B : Type} (m : Completion A) (k : A → Completion B) b :
  m >>=! k = Normal b → ∃ a, m = Normal a ∧ k a = Normal b.
Proof. destruct m as [a|e]; simpl; [eauto | discriminate]. Qed.

(** ** OptionalSchema *)

(** C1. [OptionalSchema(S).isDefaultValue(v)] is true exactly when [v] is
    [undefined] or [S.isDefaultValue(v)] is true.  In particular the optional
    schema's own default value is a default value, and so is the inner
    schema's default value whenever the inner schema accepts it as one. *)
Theorem optional_isDefaultValue_iff (S : Schema) :
  (∀ v, isDefaultValue (OptionalSchema S) v = true
        ↔ v = JSUndefined ∨ isDefaultValue S v = true)
  ∧ isDefaultValue (OptionalSchema S) (defaultValue (OptionalSchema S)) = true
  ∧ (isDefaultValue S (defaultValue S) = true
     → isDefaultValue (OptionalSchema S) (defaultValue S) = true).
Proof.
  split; [|split].
  - intros v. simpl. rewrite orb_true_iff, is_undefined_spec. reflexivity.
  - reflexivity.
  - intros HS. simpl. rewrite HS. apply orb_true_r.
Qed.

Lemma optional_isDefaultValue_iff_witness :
  isDefaultValue FlagSchema (defaultValue FlagSchema) = true
  ∧ isDefaultValue (OptionalSchema FlagSchema) (defaultValue FlagSchema) = true
  ∧ isDefaultValue (OptionalSchema FlagSchema) (JSBigInt 0) = true
  ∧ isDefaultValue (OptionalSchema FlagSchema) JSUndefined = true.
Proof.
  destruct (optional_isDefaultValue_iff FlagSchema) as (Hiff & _ & Hinner).
  split; [reflexivity|]. split; [apply Hinner; reflexivity|].
  split; apply Hiff; [right; reflexivity | left; reflexivity].
Defined.

(** C2. [OptionalSchema(S).prepareMsgpack(v)] returns [undefined] when [v] is
    [undefined], and otherwise is exactly the call [S.prepareMsgpack(v)]: the
    same returned tree, or the same thrown error. *)
Theorem optional_prepareMsgpack (S : Schema) :
  prepareMsgpack (OptionalSchema S) JSUndefined = Normal JSUndefined
  ∧ ∀ v, v ≠ JSUndefined
         → prepareMsgpack (OptionalSchema S) v = prepareMsgpack S v.
Proof.
  split; [reflexivity|].
  intros v Hv. simpl. apply is_undefined_false in Hv. by rewrite Hv.
Qed.

Lemma optional_prepareMsgpack_witness :
  prepareMsgpack (OptionalSchema FlagSchema) (JSBigInt 7)
  = prepareMsgpack FlagSchema (JSBigInt 7)
  ∧ prepareMsgpack (OptionalSchema FlagSchema) JSNull
    = prepareMsgpack FlagSchema JSNull.
Proof.
  split; apply (optional_prepareMsgpack FlagSchema); discriminate.
Defined.

(** C3. [OptionalSchema(S).fromPreparedMsgpack(tree)] returns [undefined]
    when [tree] is [undefined] and when it is [null], and otherwise is exactly
    the call [S.fromPreparedMsgpack(tree)]. *)
Theorem optional_fromPreparedMsgpack (S : Schema) :
  fromPreparedMsgpack (OptionalSchema S) JSUndefined = Normal JSUndefined
  ∧ fromPreparedMsgpack (OptionalSchema S) JSNull = Normal JSUndefined
  ∧ ∀ tree, tree ≠ JSUndefined → tree ≠ JSNull
            → fromPreparedMsgpack (OptionalSchema S) tree
              = fromPreparedMsgpack S tree.
Proof.
  split; [reflexivity|]. split; [reflexivity|].
  intros tree Hu Hn. simpl.
  by rewrite (proj2 (nil_guard_false tree) (conj Hu Hn)).
Qed.

Lemma optional_fromPreparedMsgpack_witness :
  fromPreparedMsgpack (OptionalSchema FlagSchema) (JSBoolean true)
  = fromPreparedMsgpack FlagSchema (JSBoolean true)
  ∧ fromPreparedMsgpack (OptionalSchema FlagSchema) (JSString "x")
    = fromPreparedMsgpack FlagSchema (JSString "x").
Proof.
  split; apply (optional_fromPreparedMsgpack FlagSchema); discriminate.
Defined.

(** C4, as the specification states it, fails: the constructor makes no check
    on its argument, and wrapping the sample schema twice throws nothing. *)
Lemma double_optional_not_rejected :
  ¬ ∃ e, new_double_optional FlagSchema = Throw e.
Proof. intros [e He]. discriminate He. Qed.

(** C4, amended. Constructing [OptionalSchema(OptionalSchema(S))] is accepted
    for every inner schema [S]: both constructor calls return, no error is
    thrown, and the outer schema holds [OptionalSchema(S)] as its
    [valueSchema]. *)
Theorem double_optional_accepted (S : Schema) :
  new_double_optional S = Normal (OptionalSchema (OptionalSchema S))
  ∧ ∀ e, new_double_optional S ≠ Throw e.
Proof. split; [reflexivity | discriminate]. Qed.

(** The doubly wrapped schema is degenerate: each of its six operations is
    the operation of the singly wrapped one. *)
Lemma double_optional_collapses (S : Schema) :
  let O := OptionalSchema S in
  let OO := OptionalSchema O in
  defaultValue OO = defaultValue O
  ∧ (∀ v, isDefaultValue OO v = isDefaultValue O v)
  ∧ (∀ v, prepareMsgpack OO v = prepareMsgpack O v)
  ∧ (∀ t, fromPreparedMsgpack OO t = fromPreparedMsgpack O t)
  ∧ (∀ v, prepareJSON OO v = prepareJSON O v)
  ∧ (∀ t, fromPreparedJSON OO t = fromPreparedJSON O t).
Proof.
  simpl. repeat split; intros x; by destruct x.
Qed.

(** Helper for C5: one cycle of the optional schema in terms of the inner
    schema's conversions. *)
Lemma optional_roundTrip_undefined (S : Schema) :
  roundTripMsgpack (OptionalSchema S) JSUndefined = Normal JSUndefined.
Proof. reflexivity. Qed.

Lemma optional_roundTrip_defined (S : Schema) (v : JSValue) :
  v ≠ JSUndefined →
  roundTripMsgpack (OptionalSchema S) v
  = prepareMsgpack S v >>=! (λ e,
      if is_undefined e || is_null e then Normal JSUndefined
      else fromPreparedMsgpack S e).
Proof.
  intros Hv. unfold roundTripMsgpack. simpl.
  apply is_undefined_false in Hv. by rewrite Hv.
Qed.

(** C5. Let the inner schema's cycle [f_S] satisfy [f_S ∘ f_S = f_S] (a cycle
    that throws, throws again), and let [S.prepareMsgpack] never return
    [undefined] or [null] on a value other than [undefined] that a cycle of
    [S] returned.  Then the cycle [f] of [OptionalSchema(S)] satisfies
    [f(f(v)) = f(v)] for every [v]. *)
Theorem optional_roundTrip_idempotent (S : Schema) :
  (∀ v, roundTripMsgpack S v >>=! roundTripMsgpack S = roundTripMsgpack S v) →
  (∀ v w e, roundTripMsgpack S v = Normal w → w ≠ JSUndefined →
            prepareMsgpack S w = Normal e → e ≠ JSUndefined ∧ e ≠ JSNull) →
  ∀ v, roundTripMsgpack (OptionalSchema S) v
         >>=! roundTripMsgpack (OptionalSchema S)
       = roundTripMsgpack (OptionalSchema S) v.
Proof.
  intros Hidem Himg v.
  destruct (is_undefined v) eqn:Hv.
  { apply is_undefined_spec in Hv as ->. reflexivity. }
  apply is_undefined_false in Hv.
  rewrite (optional_roundTrip_defined S v Hv).
  destruct (prepareMsgpack S v) as [e|err] eqn:Hprep; simpl; [|reflexivity].
  destruct (is_undefined e || is_null e) eqn:Hnil; [reflexivity|].
  destruct (fromPreparedMsgpack S e) as [w|err] eqn:Hfrom; simpl; [|reflexivity].
  assert (Hcycle : roundTripMsgpack S v = Normal w).
  { unfold roundTripMsgpack. rewrite Hprep. exact Hfrom. }
  destruct (is_undefined w) eqn:Hw.
  { apply is_undefined_spec in Hw as ->. reflexivity. }
  apply is_undefined_false in Hw.
  rewrite (optional_roundTrip_defined S w Hw).
  pose proof (Hidem v) as Hvv. rewrite Hcycle in Hvv. simpl in Hvv.
  apply cbind_inv_Normal in Hvv as (e' & Hprep' & Hfrom').
  rewrite Hprep'. simpl.
  destruct (Himg v w e' Hcycle Hw Hprep') as [Hu Hn].
  by rewrite (proj2 (nil_guard_false e') (conj Hu Hn)).
Qed.

(** The sample schema meets both hypotheses of C5. *)
Lemma flag_roundTrip_idempotent (v : JSValue) :
  roundTripMsgpack FlagSchema v >>=! roundTripMsgpack FlagSchema
  = roundTripMsgpack FlagSchema v.
Proof. by destruct v. Qed.

Lemma flag_prepare_not_nil (v w e : JSValue) :
  roundTripMsgpack FlagSchema v = Normal w → w ≠ JSUndefined →
  prepareMsgpack FlagSchema w = Normal e → e ≠ JSUndefined ∧ e ≠ JSNull.
Proof.
  intros _ _. destruct w; simpl; intros [= <-] || discriminate;
    split; discriminate.
Qed.

(** At the bigint [0n], a default value of the sample schema, the first cycle
    changes the value and the second does not. *)
Lemma optional_roundTrip_idempotent_witness :
  roundTripMsgpack (OptionalSchema FlagSchema) (JSBigInt 0)
  = Normal (JSBoolean false)
  ∧ roundTripMsgpack (OptionalSchema FlagSchema) (JSBigInt 0)
      >>=! roundTripMsgpack (OptionalSchema FlagSchema)
    = roundTripMsgpack (OptionalSchema FlagSchema) (JSBigInt 0).
Proof.
  split; [reflexivity|].
  apply (optional_roundTrip_idempotent FlagSchema
           flag_roundTrip_idempotent flag_prepare_not_nil).
Defined.

(** C6. [OptionalSchema(S).defaultValue()] is [undefined]; it differs from
    [S.defaultValue()] whenever that is not [undefined]. *)
Theorem optional_defaultValue (S : Schema) :
  defaultValue (OptionalSchema S) = JSUndefined
  ∧ (defaultValue S ≠ JSUndefined
     → defaultValue (OptionalSchema S) ≠ defaultValue S).
Proof. split; [reflexivity|]. simpl. congruence. Qed.

Lemma optional_defaultValue_witness :
  defaultValue FlagSchema = JSBoolean false
  ∧ defaultValue (OptionalSchema FlagSchema) ≠ defaultValue FlagSchema.
Proof.
  split; [reflexivity|].
  apply (optional_defaultValue FlagSchema). discriminate.
Defined.

(** C7. [OptionalSchema(S).prepareJSON(v)] returns [null], and not
    [undefined], when [v] is [undefined]; otherwise it is exactly the call
    [S.prepareJSON(v)]. *)
Theorem optional_prepareJSON (S : Schema) :
  prepareJSON (OptionalSchema S) JSUndefined = Normal JSNull
  ∧ prepareJSON (OptionalSchema S) JSUndefined ≠ Normal JSUndefined
  ∧ ∀ v, v ≠ JSUndefined → prepareJSON (OptionalSchema S) v = prepareJSON S v.
Proof.
  split; [reflexivity|]. split; [discriminate|].
  intros v Hv. simpl. apply is_undefined_false in Hv. by rewrite Hv.
Qed.

Lemma optional_prepareJSON_witness :
  prepareJSON (OptionalSchema FlagSchema) (JSBoolean true)
  = prepareJSON FlagSchema (JSBoolean true)
  ∧ prepareJSON (OptionalSchema FlagSchema) JSNull
    = prepareJSON FlagSchema JSNull.
Proof.
  split; apply (optional_prepareJSON FlagSchema); discriminate.
Defined.

(** C8. [OptionalSchema(S).fromPreparedJSON(tree)] returns [undefined] when
    [tree] is [null] and when it is [undefined], and otherwise is exactly the
    call [S.fromPreparedJSON(tree)]. *)
Theorem optional_fromPreparedJSON (S : Schema) :
  fromPreparedJSON (OptionalSchema S) JSNull = Normal JSUndefined
  ∧ fromPreparedJSON (OptionalSchema S) JSUndefined = Normal JSUndefined
  ∧ ∀ tree, tree ≠ JSNull → tree ≠ JSUndefined
            → fromPreparedJSON (OptionalSchema S) tree
              = fromPreparedJSON S tree.
Proof.
  split; [reflexivity|]. split; [reflexivity|].
  intros tree Hn Hu. simpl.
  by rewrite (proj2 (nil_guard_false tree) (conj Hu Hn)).
Qed.

Lemma optional_fromPreparedJSON_witness :
  fromPreparedJSON (OptionalSchema FlagSchema) (JSBoolean false)
  = fromPreparedJSON FlagSchema (JSBoolean false)
  ∧ fromPreparedJSON (OptionalSchema FlagSchema) (JSArray [])
    = fromPreparedJSON FlagSchema (JSArray []).
Proof.
  split; apply (optional_fromPreparedJSON FlagSchema); discriminate.
Defined.

(** ** LookupAccountAppLocalStates *)

Section RequestProps.
Context {HTTPClient IntDecoding BaseFields : Type}.

Local Abbreviation Request := (LookupAccountAppLocalStates BaseFields).
Local Abbreviation Store := (gmap ObjRef Request).

Implicit Types (σ : Store) (this : ObjRef) (o : Request).

Lemma deref_Some σ this o : σ !! this = Some o → deref this σ = Some (o, σ).
Proof. intros H. unfold deref. by rewrite H. Qed.

Lemma path_Some σ this o :
  σ !! this = Some o →
  path this σ
  = Some ("/v2/accounts/" +:+ account o +:+ "/apps-local-state", σ).
Proof. intros H. unfold path, bind. by rewrite (deref_Some _ _ _ H). Qed.

Lemma assign_query_Some σ this o key value :
  σ !! this = Some o →
  assign_query this key value σ
  = Some (tt, <[this := set_query o (<[key := value]> (query (super o)))]> σ).
Proof. intros H. unfold assign_query, bind. by rewrite (deref_Some _ _ _ H). Qed.

(** Every builder call is an assignment to its key followed by
    [return this]. *)
Lemma invoke_Some σ this o (call : QueryCall) :
  σ !! this = Some o →
  invoke this call σ
  = Some (this, <[this := set_query o (<[call_key call := call_value call]>
                                         (query (super o)))]> σ).
Proof.
  intros H.
  destruct call as [n|n|s|[b|]|n]; simpl;
    unfold limit, round, nextToken, includeAll, applicationID, bind;
    by rewrite (assign_query_Some _ _ _ _ _ H).
Qed.

Lemma set_query_sets_one_key (method : ObjRef → M BaseFields ObjRef)
    (call : QueryCall) :
  (∀ this, method this = invoke this call) →
  sets_one_key method (call_key call) (call_value call).
Proof.
  intros Hm σ this o Hthis.
  exists (set_query o (<[call_key call := call_value call]> (query (super o)))).
  rewrite Hm, (invoke_Some _ _ _ _ Hthis).
  split; [reflexivity|]. simpl.
  split; [apply lookup_insert_eq|].
  split; [intros k Hk; by apply lookup_insert_ne|].
  do 2 (split; [reflexivity|]).
  rewrite (path_Some _ _ _ Hthis).
  erewrite path_Some by apply lookup_insert_eq. reflexivity.
Qed.

(** C9. Each of [limit], [round], [nextToken], [includeAll] and
    [applicationID] returns the object it was called on and writes exactly
    one query key, respectively ['limit'], ['round'], ['next'],
    ['include-all'] and ['application-id'], with the argument as value; the
    account, every other query key and the path are as before.
    [includeAll()] without an argument writes [true]. *)
Theorem query_builders_set_one_key :
  (∀ n, sets_one_key (BaseFields := BaseFields)
          (λ this, limit this n) "limit" (JSNumber n))
  ∧ (∀ n, sets_one_key (BaseFields := BaseFields)
            (λ this, round this n) "round" (JSNumber n))
  ∧ (∀ s, sets_one_key (BaseFields := BaseFields)
            (λ this, nextToken this s) "next" (JSString s))
  ∧ (∀ b, sets_one_key (BaseFields := BaseFields)
            (λ this, includeAll this (Some b)) "include-all" (JSBoolean b))
  ∧ sets_one_key (BaseFields := BaseFields)
      (λ this, includeAll this None) "include-all" (JSBoolean true)
  ∧ (∀ n, sets_one_key (BaseFields := BaseFields)
            (λ this, applicationID this n) "application-id" (JSNumber n)).
Proof.
  repeat split; intros.
  - by apply (set_query_sets_one_key _ (CallLimit n)).
  - by apply (set_query_sets_one_key _ (CallRound n)).
  - by apply (set_query_sets_one_key _ (CallNextToken s)).
  - by apply (set_query_sets_one_key _ (CallIncludeAll (Some b))).
  - by apply (set_query_sets_one_key _ (CallIncludeAll None)).
  - by apply (set_query_sets_one_key _ (CallApplicationID n)).
Qed.

(** A chain of builder calls returns the object it started on and leaves
    its account as it was. *)
Lemma chain_account (calls : list QueryCall) :
  ∀ σ this o, σ !! this = Some o →
    ∃ o', chain this calls σ = Some (this, <[this := o']> σ)
        ∧ account o' = account o.
Proof.
  induction calls as [|call rest IH]; intros σ this o Hthis.
  - exists o. simpl. unfold ret. by rewrite insert_id.
  - simpl. unfold bind. rewrite (invoke_Some _ _ _ _ Hthis).
    edestruct IH as (o' & Hrun & Hacc); [apply lookup_insert_eq|].
    exists o'. rewrite Hrun, insert_insert_eq. by rewrite Hacc.
Qed.

(** C10. For every account string [a], the object constructed with [a] has
    [path()] return ['/v2/accounts/' + a + '/apps-local-state'], whatever
    the client, the decoding mode, the base-class fields and the store; and
    after any chain of query-builder calls on it [path()] returns the same
    string. *)
Theorem path_of_account
    (JSONRequest_constructor
       : HTTPClient → IntDecoding → JSONRequest BaseFields)
    (client : HTTPClient) (decoding : IntDecoding) (a : string) σ :
  ∃ this σ1,
    new_LookupAccountAppLocalStates JSONRequest_constructor client decoding a σ
    = Some (this, σ1)
    ∧ path this σ1 = Some ("/v2/accounts/" +:+ a +:+ "/apps-local-state", σ1)
    ∧ ∀ calls : list QueryCall, ∃ σ2,
        chain this calls σ1 = Some (this, σ2)
        ∧ path this σ2
          = Some ("/v2/accounts/" +:+ a +:+ "/apps-local-state", σ2).
Proof.
  eexists _, _. split; [reflexivity|].
  split; [by erewrite path_Some by apply lookup_insert_eq|].
  intros calls.
  edestruct (chain_account calls) as (o' & Hrun & Hacc);
    [apply lookup_insert_eq|].
  eexists. split; [exact Hrun|].
  erewrite path_Some by apply lookup_insert_eq. by rewrite Hacc.
Qed.

End RequestProps.

(** The builder methods on the sample store: [limit(20)] on the one request
    there returns the reference it was given, stores 20 under ['limit'] and
    keeps the account. *)
Lemma query_builders_set_one_key_witness :
  sampleStore !! 0 = Some sampleRequest
  ∧ ∃ o', limit 0 twenty sampleStore = Some (0, <[0 := o']> sampleStore)
        ∧ query (super o') !! "limit" = Some (JSNumber twenty)
        ∧ query (super o') !! "round" = None
        ∧ account o' = sampleAccount.
Proof.
  assert (Hthis : sampleStore !! 0 = Some sampleRequest)
    by apply lookup_singleton_eq.
  split; [exact Hthis|].
  destruct (@query_builders_set_one_key unit) as (Hlimit & _).
  destruct (Hlimit twenty sampleStore 0 sampleRequest Hthis)
    as (o' & Hret & Hkey & Hother & Hacc & _).
  exists o'. split; [exact Hret|]. split; [exact Hkey|].
  split; [|exact Hacc].
  rewrite (Hother "round"); [reflexivity | discriminate].
Defined.

(** [path()] on a request built in the empty store and sent through
    [.limit(20).includeAll()]. *)
Example path_of_account_sample :
  bind (new_LookupAccountAppLocalStates
          (λ c i, {| query := ∅; inherited := (c, i) |}) tt tt "ABC")
       (λ r, bind (chain r [CallLimit twenty; CallIncludeAll None]) path) ∅
  = Some ("/v2/accounts/ABC/apps-local-state",
          {[ 0 := {| super := {| query := {[ "limit" := JSNumber twenty;
                                             "include-all" := JSBoolean true ]};
                                 inherited := (tt, tt) |};
                     account := "ABC" |} ]}).
Proof. vm_compute. reflexivity. Qed.

(* ===================================================================== *)
(** * Further properties of OptionalSchema *)
(* ===================================================================== *)

Lemma undefined_or_not (v : JSValue) : v = JSUndefined ∨ v ≠ JSUndefined.
Proof. destruct v; (by left) || (by right). Qed.

(** One JSON cycle of the optional schema in terms of the inner schema's
    conversions. *)
Lemma optional_roundTripJSON_defined (S : Schema) (v : JSValue) :
  v ≠ JSUndefined →
  roundTripJSON (OptionalSchema S) v
  = prepareJSON S v >>=! (λ e,
      if is_undefined e || is_null e then Normal JSUndefined
      else fromPreparedJSON S e).
Proof.
  intros Hv. unfold roundTripJSON. simpl.
  apply is_undefined_false in Hv. by rewrite Hv.
Qed.

(** X1. The JSON cycle of [OptionalSchema(S)] is idempotent whenever the JSON
    cycle of [S] is and [S.prepareJSON] returns neither [undefined] nor
    [null] on a value other than [undefined] that a cycle of [S] returned.
    [undefined] itself goes to [null] and back. *)
Theorem optional_roundTripJSON_idempotent (S : Schema) :
  (∀ v, roundTripJSON S v >>=! roundTripJSON S = roundTripJSON S v) →
  (∀ v w e, roundTripJSON S v = Normal w → w ≠ JSUndefined →
            prepareJSON S w = Normal e → e ≠ JSUndefined ∧ e ≠ JSNull) →
  roundTripJSON (OptionalSchema S) JSUndefined = Normal JSUndefined
  ∧ ∀ v, roundTripJSON (OptionalSchema S) v
           >>=! roundTripJSON (OptionalSchema S)
         = roundTripJSON (OptionalSchema S) v.
Proof.
  intros Hidem Himg. split; [reflexivity|]. intros v.
  destruct (undefined_or_not v) as [->|Hv]; [reflexivity|].
  rewrite (optional_roundTripJSON_defined S v Hv).
  destruct (prepareJSON S v) as [e|err] eqn:Hprep; simpl; [|reflexivity].
  destruct (is_undefined e || is_null e) eqn:Hnil; [reflexivity|].
  destruct (fromPreparedJSON S e) as [w|err] eqn:Hfrom; simpl; [|reflexivity].
  assert (Hcycle : roundTripJSON S v = Normal w).
  { unfold roundTripJSON. rewrite Hprep. exact Hfrom. }
  destruct (undefined_or_not w) as [->|Hw]; [reflexivity|].
  rewrite (optional_roundTripJSON_defined S w Hw).
  specialize (Hidem v). rewrite Hcycle in Hidem. simpl in Hidem.
  apply cbind_inv_Normal in Hidem as (e' & Hprep' & Hfrom').
  rewrite Hprep'. simpl.
  destruct (Himg v w e' Hcycle Hw Hprep') as [Hu Hn].
  by rewrite (proj2 (nil_guard_false e') (conj Hu Hn)).
Qed.

Lemma flag_roundTripJSON_idempotent (v : JSValue) :
  roundTripJSON FlagSchema v >>=! roundTripJSON FlagSchema
  = roundTripJSON FlagSchema v.
Proof. by destruct v. Qed.

Lemma flag_prepareJSON_not_nil (v w e : JSValue) :
  roundTripJSON FlagSchema v = Normal w → w ≠ JSUndefined →
  prepareJSON FlagSchema w = Normal e → e ≠ JSUndefined ∧ e ≠ JSNull.
Proof.
  intros _ _. destruct w; simpl; intros [= <-] || discriminate;
    split; discriminate.
Qed.

Lemma optional_roundTripJSON_idempotent_witness :
  roundTripJSON (OptionalSchema FlagSchema) (JSBigInt 3)
  = Normal (JSBoolean true)
  ∧ roundTripJSON (OptionalSchema FlagSchema) (JSBigInt 3)
      >>=! roundTripJSON (OptionalSchema FlagSchema)
    = roundTripJSON (OptionalSchema FlagSchema) (JSBigInt 3).
Proof.
  split; [reflexivity|].
  apply (optional_roundTripJSON_idempotent FlagSchema
           flag_roundTripJSON_idempotent flag_prepareJSON_not_nil).
Defined.

(** X2. When a msgpack cycle of [OptionalSchema(S)] yields [undefined]: the
    value was [undefined], or [S] encoded it as [undefined] or [null], or
    [S] decoded its own encoding to [undefined]; and in no other case.  So a
    value that [S] encodes as nil is lost to [undefined] by the wrapper,
    whatever [S.fromPreparedMsgpack] would have made of it. *)
Theorem optional_roundTrip_absent_iff (S : Schema) (v : JSValue) :
  roundTripMsgpack (OptionalSchema S) v = Normal JSUndefined
  ↔ v = JSUndefined
    ∨ ∃ e, prepareMsgpack S v = Normal e
           ∧ (e = JSUndefined ∨ e = JSNull
              ∨ fromPreparedMsgpack S e = Normal JSUndefined).
Proof.
  destruct (undefined_or_not v) as [->|Hv].
  { split; [by left | reflexivity]. }
  rewrite (optional_roundTrip_defined S v Hv). split.
  - intros H. right.
    destruct (prepareMsgpack S v) as [e|err]; simpl in H; [|discriminate].
    exists e. split; [reflexivity|].
    destruct e; simpl in H; auto.
  - intros [Habs | (e & -> & He)]; [contradiction|]. simpl.
    destruct He as [-> | [-> | He]]; [reflexivity..|].
    by destruct (is_undefined e || is_null e).
Qed.

Lemma optional_roundTrip_absent_iff_witness :
  roundTripMsgpack (OptionalSchema LenientFlagSchema) JSUndefined
  = Normal JSUndefined
  ∧ (roundTripMsgpack (OptionalSchema FlagSchema) (JSBigInt 0)
     = Normal JSUndefined → False).
Proof.
  split.
  - apply (optional_roundTrip_absent_iff LenientFlagSchema JSUndefined).
    by left.
  - intros H.
    apply (optional_roundTrip_absent_iff FlagSchema (JSBigInt 0)) in H.
    destruct H as [H | (e & He & Hnil)]; [discriminate H|].
    injection He as <-.
    destruct Hnil as [H | [H | H]]; discriminate H.
Defined.

(** X3. On a value other than [undefined] whose inner encoding is neither
    [undefined] nor [null], a cycle of [OptionalSchema(S)] is the cycle of
    [S]: same result or same error, in both formats.  The wrapper changes
    nothing there. *)
Theorem optional_roundTrip_transparent (S : Schema) (v : JSValue) :
  v ≠ JSUndefined →
  (∀ e, prepareMsgpack S v = Normal e → e ≠ JSUndefined ∧ e ≠ JSNull
        → roundTripMsgpack (OptionalSchema S) v = roundTripMsgpack S v)
  ∧ (∀ e, prepareJSON S v = Normal e → e ≠ JSUndefined ∧ e ≠ JSNull
          → roundTripJSON (OptionalSchema S) v = roundTripJSON S v).
Proof.
  intros Hv. split; intros e He Hnil.
  - rewrite (optional_roundTrip_defined S v Hv). unfold roundTripMsgpack.
    rewrite He. simpl. by rewrite (proj2 (nil_guard_false e) Hnil).
  - rewrite (optional_roundTripJSON_defined S v Hv). unfold roundTripJSON.
    rewrite He. simpl. by rewrite (proj2 (nil_guard_false e) Hnil).
Qed.

Lemma optional_roundTrip_transparent_witness :
  roundTripMsgpack (OptionalSchema FlagSchema) (JSBoolean true)
  = roundTripMsgpack FlagSchema (JSBoolean true)
  ∧ roundTripJSON (OptionalSchema FlagSchema) (JSBigInt 0)
    = roundTripJSON FlagSchema (JSBigInt 0).
Proof.
  split.
  - assert (Hv : JSBoolean true ≠ JSUndefined) by discriminate.
    apply (proj1 (optional_roundTrip_transparent FlagSchema _ Hv)
             (JSBoolean true)); [reflexivity | split; discriminate].
  - assert (Hv : JSBigInt 0 ≠ JSUndefined) by discriminate.
    apply (proj2 (optional_roundTrip_transparent FlagSchema _ Hv)
             (JSBoolean false)); [reflexivity | split; discriminate].
Defined.

(** X4. The wrapper never consults the inner schema on [undefined], nor its
    decoders on [null]: two inner schemas that agree on every value other
    than [undefined] and, for decoding, on every tree other than [undefined]
    and [null], give optional schemas that agree on every input of all six
    operations. *)
Theorem optional_inner_unused_on_nil (S1 S2 : Schema) :
  (∀ v, v ≠ JSUndefined →
        isDefaultValue S1 v = isDefaultValue S2 v
        ∧ prepareMsgpack S1 v = prepareMsgpack S2 v
        ∧ prepareJSON S1 v = prepareJSON S2 v) →
  (∀ t, t ≠ JSUndefined → t ≠ JSNull →
        fromPreparedMsgpack S1 t = fromPreparedMsgpack S2 t
        ∧ fromPreparedJSON S1 t = fromPreparedJSON S2 t) →
  defaultValue (OptionalSchema S1) = defaultValue (OptionalSchema S2)
  ∧ ∀ x,
      isDefaultValue (OptionalSchema S1) x = isDefaultValue (OptionalSchema S2) x
      ∧ prepareMsgpack (OptionalSchema S1) x = prepareMsgpack (OptionalSchema S2) x
      ∧ fromPreparedMsgpack (OptionalSchema S1) x
        = fromPreparedMsgpack (OptionalSchema S2) x
      ∧ prepareJSON (OptionalSchema S1) x = prepareJSON (OptionalSchema S2) x
      ∧ fromPreparedJSON (OptionalSchema S1) x
        = fromPreparedJSON (OptionalSchema S2) x.
Proof.
  intros Hval Htree. split; [reflexivity|]. intros x. simpl.
  destruct (is_undefined x) eqn:Hu; simpl.
  { repeat split; reflexivity. }
  apply is_undefined_false in Hu.
  destruct (Hval x Hu) as (-> & -> & ->).
  destruct (is_null x) eqn:Hn.
  { repeat split; reflexivity. }
  apply is_null_false in Hn.
  destruct (Htree x Hu Hn) as (-> & ->).
  repeat split; reflexivity.
Qed.

Lemma flag_lenient_agree_values (v : JSValue) :
  v ≠ JSUndefined →
  isDefaultValue FlagSchema v = isDefaultValue LenientFlagSchema v
  ∧ prepareMsgpack FlagSchema v = prepareMsgpack LenientFlagSchema v
  ∧ prepareJSON FlagSchema v = prepareJSON LenientFlagSchema v.
Proof. intros Hv. by destruct v. Qed.

Lemma flag_lenient_agree_trees (t : JSValue) :
  t ≠ JSUndefined → t ≠ JSNull →
  fromPreparedMsgpack FlagSchema t = fromPreparedMsgpack LenientFlagSchema t
  ∧ fromPreparedJSON FlagSchema t = fromPreparedJSON LenientFlagSchema t.
Proof. intros Hu Hn. by destruct t. Qed.

(** The two sample schemas differ on [undefined] and [null]; their optional
    wrappers do not. *)
Lemma optional_inner_unused_on_nil_witness :
  prepareMsgpack FlagSchema JSUndefined
  ≠ prepareMsgpack LenientFlagSchema JSUndefined
  ∧ fromPreparedJSON FlagSchema JSNull ≠ fromPreparedJSON LenientFlagSchema JSNull
  ∧ prepareMsgpack (OptionalSchema FlagSchema) JSUndefined
    = prepareMsgpack (OptionalSchema LenientFlagSchema) JSUndefined
  ∧ fromPreparedJSON (OptionalSchema FlagSchema) JSNull
    = fromPreparedJSON (OptionalSchema LenientFlagSchema) JSNull.
Proof.
  split; [discriminate|]. split; [discriminate|].
  destruct (optional_inner_unused_on_nil FlagSchema LenientFlagSchema
              flag_lenient_agree_values flag_lenient_agree_trees) as [_ H].
  split; [apply (H JSUndefined) | apply (H JSNull)].
Defined.

(** X5. Wrapping any number of times is wrapping once.  For every [n], the
    [n + 1] nested constructor calls all return, and each of the six
    operations of the resulting schema is that of [OptionalSchema(S)]. *)
Theorem nested_optional_collapses (n : nat) (inner : Schema) :
  new_nested (Datatypes.S n) inner = Normal (nest (Datatypes.S n) inner)
  ∧ defaultValue (nest (Datatypes.S n) inner)
    = defaultValue (OptionalSchema inner)
  ∧ ∀ x,
      isDefaultValue (nest (Datatypes.S n) inner) x
      = isDefaultValue (OptionalSchema inner) x
      ∧ prepareMsgpack (nest (Datatypes.S n) inner) x
        = prepareMsgpack (OptionalSchema inner) x
      ∧ fromPreparedMsgpack (nest (Datatypes.S n) inner) x
        = fromPreparedMsgpack (OptionalSchema inner) x
      ∧ prepareJSON (nest (Datatypes.S n) inner) x
        = prepareJSON (OptionalSchema inner) x
      ∧ fromPreparedJSON (nest (Datatypes.S n) inner) x
        = fromPreparedJSON (OptionalSchema inner) x.
Proof.
  induction n as [|n (Hnew & Hdef & Hops)].
  - split; [reflexivity|]. split; [reflexivity|].
    intros x. repeat split; reflexivity.
  - split.
    { change (new_nested (Datatypes.S (Datatypes.S n)) inner)
        with (new_nested (Datatypes.S n) inner >>=! new_OptionalSchema).
      rewrite Hnew. reflexivity. }
    split; [reflexivity|].
    intros x. destruct (Hops x) as (Hd & Hpm & Hfm & Hpj & Hfj).
    change (nest (Datatypes.S (Datatypes.S n)) inner)
      with (OptionalSchema (nest (Datatypes.S n) inner)).
    cbn [isDefaultValue prepareMsgpack fromPreparedMsgpack prepareJSON
         fromPreparedJSON].
    rewrite Hd, Hpm, Hfm, Hpj, Hfj.
    cbn [isDefaultValue prepareMsgpack fromPreparedMsgpack prepareJSON
         fromPreparedJSON].
    repeat split.
    + by destruct (is_undefined x).
    + by destruct (is_undefined x).
    + by destruct (is_undefined x || is_null x).
    + by destruct (is_undefined x).
    + by destruct (is_undefined x || is_null x).
Qed.

(** X6. Being a default value survives a cycle.  If every default value of
    [S] that a msgpack cycle of [S] returns a result for comes back as a
    default value of [S], then the same holds of [OptionalSchema(S)], whose
    default values are [undefined] and those of [S]. *)
Theorem optional_default_stable (S : Schema) :
  (∀ v w, isDefaultValue S v = true → roundTripMsgpack S v = Normal w
          → isDefaultValue S w = true) →
  ∀ v w, isDefaultValue (OptionalSchema S) v = true
         → roundTripMsgpack (OptionalSchema S) v = Normal w
         → isDefaultValue (OptionalSchema S) w = true.
Proof.
  intros HS v w Hdef Hcycle.
  destruct (undefined_or_not v) as [->|Hv].
  { injection Hcycle as <-. reflexivity. }
  rewrite (optional_roundTrip_defined S v Hv) in Hcycle.
  simpl in Hdef. rewrite (proj2 (is_undefined_false v) Hv) in Hdef.
  simpl in Hdef.
  destruct (prepareMsgpack S v) as [e|err] eqn:Hprep; simpl in Hcycle;
    [|discriminate].
  destruct (is_undefined e || is_null e).
  { injection Hcycle as <-. reflexivity. }
  simpl. rewrite (HS v w Hdef); [apply orb_true_r|].
  unfold roundTripMsgpack. rewrite Hprep. exact Hcycle.
Qed.

Lemma flag_default_stable (v w : JSValue) :
  isDefaultValue FlagSchema v = true → roundTripMsgpack FlagSchema v = Normal w
  → isDefaultValue FlagSchema w = true.
Proof.
  destruct v; simpl; try discriminate; intros Hd [= <-]; simpl;
    by rewrite ?Hd.
Qed.

Lemma optional_default_stable_witness :
  isDefaultValue (OptionalSchema FlagSchema) (JSBigInt 0) = true
  ∧ roundTripMsgpack (OptionalSchema FlagSchema) (JSBigInt 0)
    = Normal (JSBoolean false)
  ∧ isDefaultValue (OptionalSchema FlagSchema) (JSBoolean false) = true.
Proof.
  split; [reflexivity|]. split; [reflexivity|].
  apply (optional_default_stable FlagSchema flag_default_stable (JSBigInt 0));
    reflexivity.
Defined.

(** X7. An optional schema throws no error of its own.  Whatever the depth
    of wrapping, an error thrown by one of the four conversions is the error
    that the innermost schema throws on the same input. *)
Theorem nested_errors_are_inner (n : nat) (inner : Schema) (x err : JSValue) :
  (prepareMsgpack (nest n inner) x = Throw err
   → prepareMsgpack inner x = Throw err)
  ∧ (fromPreparedMsgpack (nest n inner) x = Throw err
     → fromPreparedMsgpack inner x = Throw err)
  ∧ (prepareJSON (nest n inner) x = Throw err
     → prepareJSON inner x = Throw err)
  ∧ (fromPreparedJSON (nest n inner) x = Throw err
     → fromPreparedJSON inner x = Throw err).
Proof.
  induction n as [|n (IHpm & IHfm & IHpj & IHfj)]; [by repeat split|].
  cbn [nest prepareMsgpack fromPreparedMsgpack prepareJSON fromPreparedJSON].
  repeat split.
  - destruct (is_undefined x); [discriminate | exact IHpm].
  - destruct (is_undefined x || is_null x); [discriminate | exact IHfm].
  - destruct (is_undefined x); [discriminate | exact IHpj].
  - destruct (is_undefined x || is_null x); [discriminate | exact IHfj].
Qed.

Lemma nested_errors_are_inner_witness :
  prepareMsgpack (nest 3 FlagSchema) (JSString "yes") = Throw notAFlag
  ∧ prepareMsgpack FlagSchema (JSString "yes") = Throw notAFlag.
Proof.
  split; [reflexivity|].
  apply (nested_errors_are_inner 3 FlagSchema (JSString "yes") notAFlag).
  reflexivity.
Defined.

(* ===================================================================== *)
(** * Further properties of the request builder *)
(* ===================================================================== *)

(** A string is determined by what is put before a fixed suffix. *)
Lemma append_length (s t : string) :
  String.length (s +:+ t) = String.length s + String.length t.
Proof. induction s as [|a s IH]; simpl; [reflexivity | by rewrite IH]. Qed.

Lemma append_inj_suffix (t s1 s2 : string) : s1 +:+ t = s2 +:+ t → s1 = s2.
Proof.
  revert s2. induction s1 as [|a s1 IH]; intros [|b s2] H.
  - reflexivity.
  - apply (f_equal String.length) in H.
    rewrite !append_length in H. simpl in H. lia.
  - apply (f_equal String.length) in H.
    rewrite !append_length in H. simpl in H. lia.
  - change (String a (s1 +:+ t) = String b (s2 +:+ t)) in H.
    injection H as -> H. f_equal. by apply IH.
Qed.

Lemma apply_calls_lookup (calls : list QueryCall) :
  ∀ (q : gmap string JSValue) k,
    apply_calls q calls !! k
    = match last_write k calls with
      | Some v => Some v
      | None => q !! k
      end.
Proof.
  induction calls as [|call rest IH]; intros q k; [reflexivity|].
  change (apply_calls q (call :: rest))
    with (apply_calls (<[call_key call := call_value call]> q) rest).
  rewrite IH. simpl. destruct (last_write k rest); [reflexivity|].
  destruct (decide (call_key call = k)) as [<-|Hne].
  - apply lookup_insert_eq.
  - by apply lookup_insert_ne.
Qed.

Lemma apply_calls_dom (calls : list QueryCall) :
  ∀ q : gmap string JSValue,
    dom (apply_calls q calls) = dom q ∪ list_to_set (call_key <$> calls).
Proof.
  induction calls as [|call rest IH]; intros q.
  - simpl. by rewrite union_empty_r_L.
  - change (apply_calls q (call :: rest))
      with (apply_calls (<[call_key call := call_value call]> q) rest).
    rewrite IH, dom_insert_L. simpl.
    by rewrite (comm_L (∪) {[call_key call]} (dom q)), <- (assoc_L (∪)).
Qed.


Section RequestChains.
Context {BaseFields : Type}.

Local Abbreviation Request := (LookupAccountAppLocalStates BaseFields).

Implicit Types (σ : gmap ObjRef Request) (this : ObjRef) (o : Request).

Lemma set_query_id o : set_query o (query (super o)) = o.
Proof. by destruct o as [[q i] a]. Qed.

(** A call on a reference to no object has no result. *)
Lemma invoke_None σ this (call : QueryCall) :
  σ !! this = None → invoke this call σ = None.
Proof.
  intros H.
  destruct call as [n|n|s|[b|]|n];
    cbv beta iota zeta delta [invoke limit round nextToken includeAll
                              applicationID bind assign_query deref];
    by rewrite H.
Qed.

(** A chain of calls is one update of the object: its query map becomes
    [apply_calls] of the old one. *)
Lemma chain_Some (calls : list QueryCall) :
  ∀ σ this o, σ !! this = Some o →
    chain this calls σ
    = Some (this, <[this := set_query o (apply_calls (query (super o)) calls)]> σ).
Proof.
  induction calls as [|call rest IH]; intros σ this o Hthis.
  - simpl. unfold ret. by rewrite set_query_id, insert_id.
  - simpl. unfold bind. rewrite (invoke_Some _ _ _ _ Hthis).
    erewrite IH by apply lookup_insert_eq.
    by rewrite insert_insert_eq.
Qed.

Lemma chain_None σ this (call : QueryCall) (rest : list QueryCall) :
  σ !! this = None → chain this (call :: rest) σ = None.
Proof. intros H. simpl. unfold bind. by rewrite (invoke_None _ _ _ H). Qed.

(** X8. Last write wins.  After a chain of builder calls on a request, each
    query key holds the value of the last call in the chain that writes it,
    and a key no call writes holds what it held before; the chain returns the
    request it started on, whose account and inherited fields are as they
    were. *)
Theorem chain_last_write_wins (calls : list QueryCall) σ this o :
  σ !! this = Some o →
  ∃ o', chain this calls σ = Some (this, <[this := o']> σ)
      ∧ account o' = account o
      ∧ inherited (super o') = inherited (super o)
      ∧ ∀ k, query (super o') !! k
             = match last_write k calls with
               | Some v => Some v
               | None => query (super o) !! k
               end.
Proof.
  intros Hthis. eexists. split; [exact (chain_Some calls _ _ _ Hthis)|].
  split; [reflexivity|]. split; [reflexivity|].
  intros k. simpl. apply apply_calls_lookup.
Qed.


(** X10. A builder call is overwritten by a later call on the same key:
    putting it directly before that call changes nothing, whatever follows. *)
Theorem chain_overwrite (a b : QueryCall) (rest : list QueryCall) σ this :
  call_key a = call_key b →
  chain this (a :: b :: rest) σ = chain this (b :: rest) σ.
Proof.
  intros Hkey.
  destruct (σ !! this) as [o|] eqn:Hthis.
  - rewrite !(chain_Some _ _ _ _ Hthis). unfold apply_calls. simpl.
    by rewrite Hkey, insert_insert_eq.
  - by rewrite !chain_None.
Qed.

(** X11. Builder calls never remove a query parameter: after a chain, the
    keys of the query map are the keys it had before together with the keys
    of the calls made. *)
Theorem chain_keys (calls : list QueryCall) σ this o :
  σ !! this = Some o →
  ∃ o', chain this calls σ = Some (this, <[this := o']> σ)
      ∧ dom (query (super o'))
        = dom (query (super o)) ∪ list_to_set (call_key <$> calls).
Proof.
  intros Hthis. eexists. split; [exact (chain_Some calls _ _ _ Hthis)|].
  simpl. apply apply_calls_dom.
Qed.

(** X12. Two requests have the same path exactly when they have the same
    account: no two accounts share an endpoint. *)
Theorem path_injective σ (r1 r2 : ObjRef) (o1 o2 : Request) :
  σ !! r1 = Some o1 → σ !! r2 = Some o2 →
  fst <$> path r1 σ = fst <$> path r2 σ ↔ account o1 = account o2.
Proof.
  intros H1 H2. rewrite (path_Some _ _ _ H1), (path_Some _ _ _ H2). simpl.
  split.
  - intros H. apply (inj Some) in H.
    apply (inj (String.app "/v2/accounts/")) in H.
    by apply append_inj_suffix in H.
  - by intros ->.
Qed.

End RequestChains.

(** The chain [.limit(20).includeAll().limit(5)] on the sample request. *)
Lemma chain_last_write_wins_witness :
  sampleStore !! 0 = Some sampleRequest
  ∧ ∃ o', chain 0 [CallLimit twenty; CallIncludeAll None; CallLimit five]
            sampleStore
          = Some (0, <[0 := o']> sampleStore)
        ∧ query (super o') !! "limit" = Some (JSNumber five)
        ∧ query (super o') !! "include-all" = Some (JSBoolean true)
        ∧ query (super o') !! "round" = None.
Proof.
  assert (Hthis : sampleStore !! 0 = Some sampleRequest)
    by apply lookup_singleton_eq.
  split; [exact Hthis|].
  destruct (chain_last_write_wins
              [CallLimit twenty; CallIncludeAll None; CallLimit five]
              sampleStore 0 sampleRequest Hthis)
    as (o' & Hrun & _ & _ & Hq).
  exists o'. split; [exact Hrun|].
  split; [|split]; rewrite Hq; reflexivity.
Defined.


(** [.limit(20).limit(5).round(5)] is [.limit(5).round(5)]. *)
Lemma chain_overwrite_witness :
  chain 0 [CallLimit twenty; CallLimit five; CallRound five] twoRequests
  = chain 0 [CallLimit five; CallRound five] twoRequests.
Proof.
  apply (chain_overwrite (CallLimit twenty) (CallLimit five)
           [CallRound five] twoRequests 0).
  reflexivity.
Defined.

(** A request that already has ['round'] keeps it through [.limit(20)]. *)
Lemma chain_keys_witness :
  twoRequests !! 1 = Some otherRequest
  ∧ ∃ o', chain 1 [CallLimit twenty] twoRequests
          = Some (1, <[1 := o']> twoRequests)
        ∧ dom (query (super o'))
          = dom (query (super otherRequest))
            ∪ list_to_set (call_key <$> [CallLimit twenty]).
Proof.
  assert (Hthis : twoRequests !! 1 = Some otherRequest) by reflexivity.
  split; [exact Hthis|].
  apply (chain_keys [CallLimit twenty] twoRequests 1 otherRequest Hthis).
Defined.

(** The two sample requests are for different accounts and have different
    paths. *)
Lemma path_injective_witness :
  twoRequests !! 0 = Some sampleRequest
  ∧ twoRequests !! 1 = Some otherRequest
  ∧ fst <$> path 0 twoRequests ≠ fst <$> path 1 twoRequests.
Proof.
  assert (H0 : twoRequests !! 0 = Some sampleRequest) by reflexivity.
  assert (H1 : twoRequests !! 1 = Some otherRequest) by reflexivity.
  split; [exact H0|]. split; [exact H1|].
  intros Hpath.
  apply (path_injective twoRequests 0 1 sampleRequest otherRequest H0 H1)
    in Hpath.
  discriminate Hpath.
Defined.
